(** * mmmdatastructures: the string queue and the integer max-heap

    A shallow embedding of [stringqueue/queue.go] (a circular buffer that
    doubles its capacity when full) and of the max-heap exercised by
    [ints/maxheap/maxheap_test.go], with the properties the specification
    states about them.

    Go values are modelled as follows.
    - [int] is a 64-bit two's complement integer: a [Z] with the wrap-around
      of [+], [-] and [*] written out ([int_add], [int_sub], [int_mul]).
    - [[]string] is a [list string]; indexing and storing outside
      [0 .. len-1] panics, [make] with a negative length panics, [append]
      adds at the end.
    - [error] is [option string]: [None] is [nil], [Some msg] is the value
      built by [errors.New msg].
    - a method with a pointer receiver takes the queue and returns the
      queue it leaves behind, inside [exec], which also records a run-time
      panic. *)

From Stdlib Require Import ZArith Lia.
From stdpp Require Import base list strings.

Local Open Scope Z_scope.

(** ** The Go run time *)

Module Go.

Inductive panic : Type :=
  | IndexOutOfRange (i : Z) (len : nat)
  | MakesliceLenOutOfRange.

(** The outcome of running a piece of code: it returns, it panics, or the
    model's loop budget ran out before the loop ended. *)
Inductive exec (A : Type) : Type :=
  | Ret (a : A)
  | Panic (p : panic)
  | OutOfFuel.
Arguments Ret {A} a.
Arguments Panic {A} p.
Arguments OutOfFuel {A}.

#[export] Instance exec_ret : MRet exec := fun A a => Ret a.
#[export] Instance exec_bind : MBind exec := fun A B f m =>
  match m with
  | Ret a => f a
  | Panic p => Panic p
  | OutOfFuel => OutOfFuel
  end.

(** [m] returns, and what it returns satisfies [Q]. *)
Definition ensures {A} (m : exec A) (Q : A -> Prop) : Prop :=
  exists a, m = Ret a /\ Q a.

(** *** int *)

Definition min_int : Z := - 2 ^ 63.
Definition max_int : Z := 2 ^ 63 - 1.

Definition wrap (z : Z) : Z := (z + 2 ^ 63) mod 2 ^ 64 - 2 ^ 63.

Definition int_add (a b : Z) : Z := wrap (a + b).
Definition int_sub (a b : Z) : Z := wrap (a - b).
Definition int_mul (a b : Z) : Z := wrap (a * b).

Definition is_int (z : Z) : Prop := min_int <= z <= max_int.

(** *** error *)

Definition error : Type := option string.
Definition nil_error : error := None.
Definition errors_New (msg : string) : error := Some msg.

(** *** slices of strings *)

Definition len (s : list string) : Z := Z.of_nat (List.length s).

(** [make([]string, n, n)]: [n] zero values. *)
Definition make (n : Z) : exec (list string) :=
  if n <? 0 then Panic MakesliceLenOutOfRange
  else Ret (replicate (Z.to_nat n) ""%string).

(** [s[i]] as an expression. *)
Definition index (s : list string) (i : Z) : exec string :=
  if (0 <=? i) && (i <? len s) then
    match s !! Z.to_nat i with
    | Some v => Ret v
    | None => Panic (IndexOutOfRange i (List.length s))
    end
  else Panic (IndexOutOfRange i (List.length s)).

(** [s[i] = v]. *)
Definition store (s : list string) (i : Z) (v : string) : exec (list string) :=
  if (0 <=? i) && (i <? len s) then Ret (<[Z.to_nat i := v]> s)
  else Panic (IndexOutOfRange i (List.length s)).

(** [append(s, v)]. *)
Definition append (s : list string) (v : string) : list string := s ++ [v].

End Go.

Import Go.

(** ** stringqueue/queue.go *)

Module stringqueue.

Record IntQueue : Type := mkIntQueue {
  data : list string;
  head : Z;
  tail : Z;
  capacity : Z;
  length : Z
}.

Definition set_data (q : IntQueue) (d : list string) : IntQueue :=
  mkIntQueue d (head q) (tail q) (capacity q) (length q).
Definition set_head (q : IntQueue) (h : Z) : IntQueue :=
  mkIntQueue (data q) h (tail q) (capacity q) (length q).
Definition set_tail (q : IntQueue) (t : Z) : IntQueue :=
  mkIntQueue (data q) (head q) t (capacity q) (length q).
Definition set_capacity (q : IntQueue) (c : Z) : IntQueue :=
  mkIntQueue (data q) (head q) (tail q) c (length q).
Definition set_length (q : IntQueue) (n : Z) : IntQueue :=
  mkIntQueue (data q) (head q) (tail q) (capacity q) n.

Definition DefaultCapacity : Z := 32.

Definition NewWithCapacity (capacity : Z) : exec IntQueue :=
  d ← make capacity;
  mret (mkIntQueue d (-1) (-1) capacity 0).

Definition New : exec IntQueue := NewWithCapacity DefaultCapacity.

(** [Dequeue] returns the queue it leaves, the string and the error. *)
Definition Dequeue (q : IntQueue) : exec (IntQueue * (string * error)) :=
  if int_sub (length q) 1 <? 0 then
    mret (q, (""%string, errors_New "Queue empty"))
  else
    let q := set_length q (int_sub (length q) 1) in
    let q := set_tail q (int_add (tail q) 1) in
    let q := if tail q =? capacity q then set_tail q 0 else q in
    v ← index (data q) (tail q);
    mret (q, (v, nil_error)).

(** The loop of [resize],
    [for err = nil; err == nil; i, err = q.Dequeue() { new_data = append(new_data, i) }]:
    the condition holds on entry, so a round is the body followed by the
    post statement, and the loop ends at the first [Dequeue] that returns an
    error. [i] is the local of that name, the empty string on entry. *)
Fixpoint resize_loop (fuel : nat) (q : IntQueue) (new_data : list string)
    (i : string) : exec (IntQueue * list string) :=
  match fuel with
  | O => OutOfFuel
  | S fuel =>
      let new_data := append new_data i in
      '(q, (i, err)) ← Dequeue q;
      match err with
      | None => resize_loop fuel q new_data i
      | Some _ => mret (q, new_data)
      end
  end.

(** A round of the loop that does not end it lowers [length] by one, so
    [length + 1] rounds are the budget (see [resize_loop_returns]). *)
Definition resize (new_capacity : Z) (q : IntQueue) : exec IntQueue :=
  new_data ← make new_capacity;
  '(q, new_data) ← resize_loop (S (Z.to_nat (length q))) q new_data ""%string;
  let q := set_head q (int_sub (length q) 1) in
  let q := set_tail q 0 in
  let q := set_capacity q new_capacity in
  let q := set_data q new_data in
  mret q.

(** The tail of [Enqueue], after the growth test. *)
Definition Enqueue_put (i : string) (q : IntQueue) : exec (IntQueue * error) :=
  let q := set_length q (int_add (length q) 1) in
  let q := set_head q (int_add (head q) 1) in
  let q := if head q =? capacity q then set_head q 0 else q in
  d ← store (data q) (head q) i;
  mret (set_data q d, nil_error).

Definition Enqueue (i : string) (q : IntQueue) : exec (IntQueue * error) :=
  if int_add (length q) 1 >? capacity q then
    let new_capacity := int_mul (capacity q) 2 in
    if new_capacity <? 0 then mret (q, errors_New "Capacity exceeded")
    else q ← resize new_capacity q; Enqueue_put i q
  else Enqueue_put i q.

(** *** Clients of the queue *)

Inductive call : Type :=
  | CallEnqueue (i : string)
  | CallDequeue.

Inductive reply : Type :=
  | EnqueueReturned (err : error)
  | DequeueReturned (v : string) (err : error).

Definition do_call (c : call) (q : IntQueue) : exec (IntQueue * reply) :=
  match c with
  | CallEnqueue i => '(q, err) ← Enqueue i q; mret (q, EnqueueReturned err)
  | CallDequeue => '(q, (v, err)) ← Dequeue q; mret (q, DequeueReturned v err)
  end.

Fixpoint do_calls (cs : list call) (q : IntQueue) : exec (IntQueue * list reply) :=
  match cs with
  | [] => mret (q, [])
  | c :: cs =>
      '(q, r) ← do_call c q;
      '(q, rs) ← do_calls cs q;
      mret (q, r :: rs)
  end.

(** A queue built with [NewWithCapacity c] and used through its two methods. *)
Definition session (c : Z) (cs : list call) : exec (IntQueue * list reply) :=
  q ← NewWithCapacity c; do_calls cs q.

Definition enqueues (vs : list string) : list call := CallEnqueue <$> vs.
Definition dequeues (n : nat) : list call := replicate n CallDequeue.
Definition enqueued (vs : list string) : list reply :=
  (fun _ => EnqueueReturned nil_error) <$> vs.
Definition dequeued (vs : list string) : list reply :=
  (fun v => DequeueReturned v nil_error) <$> vs.

(** The elements a client has enqueued and not yet dequeued, from the calls
    it made and the replies it got. *)
Definition live_step (live : list string) (cr : call * reply) : list string :=
  match cr with
  | (CallEnqueue i, EnqueueReturned None) => live ++ [i]
  | (CallDequeue, DequeueReturned _ None) => drop 1 live
  | _ => live
  end.

Definition live_elements (cs : list call) (rs : list reply) : list string :=
  foldl live_step [] (zip cs rs).

(** *** The queue of the specification *)

(** A FIFO queue as a list, oldest element first, answering the calls the
    way the specification describes them: [Enqueue] adds at the end,
    [Dequeue] takes from the front or reports "Queue empty". The code is
    compared with it below. *)
Definition fifo_call (c : call) (live : list string) : list string * reply :=
  match c with
  | CallEnqueue i => (live ++ [i], EnqueueReturned nil_error)
  | CallDequeue =>
      match live with
      | [] => ([], DequeueReturned "" (errors_New "Queue empty"))
      | v :: live => (live, DequeueReturned v nil_error)
      end
  end.

Fixpoint fifo_calls (cs : list call) (live : list string) : list string * list reply :=
  match cs with
  | [] => (live, [])
  | c :: cs =>
      let '(live, r) := fifo_call c live in
      let '(live, rs) := fifo_calls cs live in
      (live, r :: rs)
  end.

(** The calls [cs], made on a queue that holds [live], never find the queue
    full: at each [Enqueue] fewer than [cap] elements are held. *)
Fixpoint within (cap : Z) (cs : list call) (live : list string) : Prop :=
  match cs with
  | [] => True
  | c :: cs =>
      match c with CallEnqueue _ => len live < cap | CallDequeue => True end /\
      within cap cs (fifo_call c live).1
  end.

(** *** Invariants *)

(** What keeps every slice access of [Enqueue] and [Dequeue] in range. *)
Record inbounds (q : IntQueue) : Prop := mk_inbounds {
  inbounds_capacity : 1 <= capacity q <= max_int;
  inbounds_data : capacity q <= len (data q);
  inbounds_head : -1 <= head q < capacity q;
  inbounds_tail : -1 <= tail q < capacity q;
  inbounds_length : is_int (length q)
}.

(** The bounds the specification gives for [length], for a capacity that
    is not the largest [int] (one more element could then not be
    counted). *)
Definition bounded (q : IntQueue) : Prop :=
  0 <= length q <= capacity q /\ capacity q < max_int.

(** The index after [x] around the buffer, as both methods step to it. *)
Definition advance (q : IntQueue) (x : Z) : Z :=
  if x + 1 =? capacity q then 0 else x + 1.

(** The index of the [k]-th oldest element, walking forward from
    [(tail+1) mod capacity]. *)
Definition slot (q : IntQueue) (k : Z) : Z := (tail q + 1 + k) mod capacity q.

(** What the backing array holds at the [length] slots after [tail]. *)
Definition contents (q : IntQueue) : list string :=
  (fun k => default ""%string (data q !! Z.to_nat (slot q k))) <$> seqZ 0 (length q).

(** The representation invariant of the specification, for a queue that
    holds the elements [live], oldest first: [length] counts them and is
    between 0 and [capacity]; they sit at [slot q 0], [slot q 1], ...; and
    [head] is [length] steps ahead of [tail] around the buffer. *)
Record rep_inv (live : list string) (q : IntQueue) : Prop := mk_rep_inv {
  rep_count : length q = len live;
  rep_bound : 0 <= length q <= capacity q;
  rep_slots : forall (k : nat) (v : string),
    live !! k = Some v -> data q !! Z.to_nat (slot q (Z.of_nat k)) = Some v;
  rep_head : (head q - tail q) mod capacity q = length q mod capacity q
}.

(** *** The states the methods lead to (proved below) *)

(** What a [Dequeue] that finds an element leaves behind. *)
Definition after_dequeue (q : IntQueue) : IntQueue :=
  mkIntQueue (data q) (head q) (advance q (tail q)) (capacity q) (int_sub (length q) 1).

(** What an [Enqueue] that does not grow the queue leaves behind. *)
Definition after_enqueue (i : string) (q : IntQueue) : IntQueue :=
  mkIntQueue (<[Z.to_nat (advance q (head q)) := i]> (data q))
    (advance q (head q)) (tail q) (capacity q) (int_add (length q) 1).

(** What [resize] leaves behind: a slice of [new_capacity] empty strings,
    then the empty string the loop appends on entry, then the old contents;
    [head] -1, [tail] 0 and [length] 0. *)
Definition after_resize (new_capacity : Z) (q : IntQueue) : IntQueue :=
  mkIntQueue (replicate (Z.to_nat new_capacity) ""%string ++ ""%string :: contents q)
    (-1) 0 new_capacity 0.

(** What an [Enqueue] that grows the queue leaves behind. *)
Definition after_grow (i : string) (q : IntQueue) : IntQueue :=
  mkIntQueue
    (<[0%nat := i]> (replicate (Z.to_nat (2 * capacity q)) ""%string ++ ""%string :: contents q))
    0 0 (2 * capacity q) 1.

(** The strings of [TestFill]: [string(i)] for [i] from 1 to 32, the string
    of the one code point [i], and then ["33"]. *)
Definition rune_string (i : nat) : string := String (Ascii.ascii_of_nat i) EmptyString.
Definition fill_values : list string := (rune_string <$> seq 1 32) ++ ["33"%string].

(** *** Shapes of states and of call sequences used below *)

(** A queue of capacity [c] that was built empty and has taken the strings
    [vs], none of them given back: they sit at the start of the array. *)
Definition filled (c : Z) (vs : list string) : IntQueue :=
  mkIntQueue (vs ++ replicate (Z.to_nat c - List.length vs) ""%string)
    (len vs - 1) (-1) c (len vs).

(** [Enqueue] of each string followed at once by a [Dequeue], as the last
    loop of [TestDrain] does, and the replies that give each string back. *)
Definition pairs (vs : list string) : list call :=
  vs ≫= fun v => [CallEnqueue v; CallDequeue].
Definition paired (vs : list string) : list reply :=
  vs ≫= fun v => [EnqueueReturned nil_error; DequeueReturned v nil_error].

End stringqueue.

(** ** ints/maxheap *)

Module maxheap.

(** Modelled from the spec: the package [ints/maxheap] itself (the type
    [MaxHeap] with [New], [Peek], [Insert] and [Delete]) is missing; only
    its test file is at hand. The definitions of this module follow
    section 4.2 of the specification. [HeapEmpty] is the error of [Peek]
    and [Delete] on an empty heap. *)
Inductive heap_error : Type := HeapEmpty.

(** Modelled from the spec: the missing type [MaxHeap]. A backing sequence
    whose slot 0 is an unused placeholder (0, as the expected slices of the
    tests have it) and whose root is at index 1, and [size], the number of
    elements. *)
Record MaxHeap : Type := mkMaxHeap {
  data : list Z;
  size : nat
}.

(** Modelled from the spec: the missing [New]. An empty heap, [size] 0, the
    backing sequence holding only the placeholder. *)
Definition New : MaxHeap := mkMaxHeap [0] 0.

(** Modelled from the spec: the exchange of two nodes that both sift
    operations perform. *)
Definition swap (d : list Z) (i j : nat) : list Z :=
  match d !! i, d !! j with
  | Some x, Some y => <[i := y]> (<[j := x]> d)
  | _, _ => d
  end.

(** Modelled from the spec: [Peek] fails with [HeapEmpty] when [size] is 0
    and otherwise returns the root, without mutation. *)
Definition Peek (h : MaxHeap) : Z * option heap_error :=
  if (size h =? 0)%nat then (0, Some HeapEmpty)
  else (default 0 (data h !! 1%nat), None).

(** Modelled from the spec: sift-up. While the node's value exceeds its
    parent's (parent index = child/2), swap with the parent; stop at the
    root or when the heap property holds. A node at index [i] is at most
    [i] steps from the root, which is the budget [Insert] gives. *)
Fixpoint sift_up (fuel : nat) (d : list Z) (i : nat) : exec (list Z) :=
  match fuel with
  | O => OutOfFuel
  | S fuel =>
      if (i <=? 1)%nat then mret d
      else
        let parent := (i / 2)%nat in
        match d !! i, d !! parent with
        | Some x, Some y =>
            if y <? x then sift_up fuel (swap d i parent) parent else mret d
        | _, _ => mret d
        end
  end.

(** Modelled from the spec: [Insert] appends the value at index [size+1],
    increments [size] and sifts the new node up. *)
Definition Insert (value : Z) (h : MaxHeap) : exec MaxHeap :=
  let d := data h ++ [value] in
  let n := S (size h) in
  d ← sift_up n d n;
  mret (mkMaxHeap d n).

(** Modelled from the spec: sift-down from index [i] in a heap of [n]
    elements. The children are [2i] and [2i+1] when they are within
    [1 .. n]; the larger child is swapped with the node when it exceeds the
    node, and the walk goes on from there; it stops when no child exceeds
    the node or no child remains. The specification leaves the choice
    between two equal children open: this model takes the left one. *)
Fixpoint sift_down (fuel : nat) (d : list Z) (n i : nat) : exec (list Z) :=
  match fuel with
  | O => OutOfFuel
  | S fuel =>
      let l := (2 * i)%nat in
      let r := (2 * i + 1)%nat in
      if (n <? l)%nat then mret d
      else
        let child :=
          if (r <=? n)%nat && (default 0 (d !! l) <? default 0 (d !! r)) then r else l in
        if default 0 (d !! i) <? default 0 (d !! child)
        then sift_down fuel (swap d i child) n child
        else mret d
  end.

(** Modelled from the spec: [Delete] fails with [HeapEmpty] when [size] is
    0; otherwise the value returned is the root, the last element moves to
    the root slot, [size] is decremented, the backing sequence is truncated
    to [size] elements after the placeholder, and the root is sifted
    down. *)
Definition Delete (h : MaxHeap) : exec (MaxHeap * (Z * option heap_error)) :=
  if (size h =? 0)%nat then mret (h, (0, Some HeapEmpty))
  else
    let top := default 0 (data h !! 1%nat) in
    let last := default 0 (data h !! size h) in
    let n := pred (size h) in
    let d := take (S n) (<[1%nat := last]> (data h)) in
    d ← sift_down (S n) d n 1;
    mret (mkMaxHeap d n, (top, None)).

(** The calls of the tests: [Insert] of each value in turn. *)
Fixpoint insert_all (vs : list Z) (h : MaxHeap) : exec MaxHeap :=
  match vs with
  | [] => mret h
  | v :: vs => h ← Insert v h; insert_all vs h
  end.

(** [n] calls of [Delete], with what each returned. *)
Fixpoint delete_n (n : nat) (h : MaxHeap) : exec (MaxHeap * list (Z * option heap_error)) :=
  match n with
  | O => mret (h, [])
  | S n =>
      '(h, r) ← Delete h;
      '(h, rs) ← delete_n n h;
      mret (h, r :: rs)
  end.

End maxheap.

(** ** Tactics *)

(** Bounds of [int] values, once the limits are spelled out. *)
Ltac int_range := unfold is_int, min_int, max_int in *; lia.

(** Closed comparisons of integers, settled by evaluation. *)
Ltac evaluated := vm_compute; repeat split; first [discriminate | reflexivity].

(** ** int arithmetic *)

Section IntFacts.

Lemma wrap_id z : is_int z -> wrap z = z.
Proof.
  unfold is_int, min_int, max_int, wrap. intros Hz.
  rewrite Z.mod_small; lia.
Qed.

Lemma wrap_is_int z : is_int (wrap z).
Proof.
  unfold is_int, min_int, max_int, wrap.
  pose proof (Z.mod_pos_bound (z + 2 ^ 63) (2 ^ 64)). lia.
Qed.

Lemma ltb_true a b : a < b -> (a <? b) = true.
Proof. apply Z.ltb_lt. Qed.

Lemma ltb_false a b : b <= a -> (a <? b) = false.
Proof. apply Z.ltb_ge. Qed.

Lemma int_add_max_int : int_add max_int 1 = min_int.
Proof. vm_compute. reflexivity. Qed.

Lemma int_sub_0_1 : int_sub 0 1 = -1.
Proof. vm_compute. reflexivity. Qed.

Lemma int_add_0_1 : int_add 0 1 = 1.
Proof. vm_compute. reflexivity. Qed.

Lemma int_add_id a b : is_int (a + b) -> int_add a b = a + b.
Proof. apply wrap_id. Qed.

Lemma int_sub_id a b : is_int (a - b) -> int_sub a b = a - b.
Proof. apply wrap_id. Qed.

(** Doubling a capacity that fits an [int]: the product wraps to a negative
    number exactly when the true product is above [max_int]. *)
Lemma int_mul_2_small c : 0 <= c -> 2 * c <= max_int -> int_mul c 2 = 2 * c.
Proof.
  intros H0 H1. unfold int_mul. rewrite wrap_id; [lia|].
  int_range.
Qed.

Lemma int_mul_2_big c : 0 <= c <= max_int -> max_int < 2 * c -> int_mul c 2 < 0.
Proof.
  unfold int_mul, wrap, max_int. intros H0 H1.
  replace (c * 2 + 2 ^ 63) with ((2 * c - 2 ^ 63) + 1 * 2 ^ 64) by lia.
  rewrite Z.mod_add by lia. rewrite Z.mod_small; lia.
Qed.

Lemma int_mul_2_neg c :
  0 <= c <= max_int -> (int_mul c 2 <? 0) = true <-> max_int < 2 * c.
Proof.
  intros Hc. split.
  - intros Hneg%Z.ltb_lt. destruct (Z_lt_le_dec max_int (2 * c)) as [|Hle]; [done|].
    rewrite int_mul_2_small in Hneg; lia.
  - intros Hbig. apply Z.ltb_lt. by apply int_mul_2_big.
Qed.

End IntFacts.

(** ** Slices *)

Section SliceFacts.

Lemma bind_Ret {A B} (a : A) (f : A -> exec B) : Ret a ≫= f = f a.
Proof. reflexivity. Qed.

Lemma bind_Ret_inv {A B} (m : exec A) (f : A -> exec B) b :
  m ≫= f = Ret b -> exists a, m = Ret a /\ f a = Ret b.
Proof. destruct m as [a| |]; [by exists a|done|done]. Qed.

Lemma ensures_Ret {A} (a : A) (Q : A -> Prop) : Q a -> ensures (Ret a) Q.
Proof. intros Ha. by exists a. Qed.

Lemma ensures_bind {A B} (m : exec A) (f : A -> exec B) (P : A -> Prop) (Q : B -> Prop) :
  ensures m P -> (forall a, P a -> ensures (f a) Q) -> ensures (m ≫= f) Q.
Proof. intros (a & -> & Ha) Hf. rewrite bind_Ret. by apply Hf. Qed.

Lemma len_nonneg (s : list string) : 0 <= len s.
Proof. unfold len. lia. Qed.

Lemma len_app (s t : list string) : len (s ++ t) = len s + len t.
Proof. unfold len. rewrite length_app. lia. Qed.

Lemma len_replicate (n : Z) (v : string) : 0 <= n -> len (replicate (Z.to_nat n) v) = n.
Proof. intros Hn. unfold len. rewrite length_replicate. lia. Qed.

Lemma make_returns n : 0 <= n -> make n = Ret (replicate (Z.to_nat n) ""%string).
Proof. intros Hn. unfold make. by rewrite (proj2 (Z.ltb_ge n 0)). Qed.

Lemma index_in_range (s : list string) i :
  0 <= i < len s ->
  exists v, s !! Z.to_nat i = Some v /\ index s i = Ret v.
Proof.
  intros Hi. unfold index.
  destruct (lookup_lt_is_Some_2 s (Z.to_nat i)) as [v Hv].
  { unfold len in Hi. lia. }
  exists v. split; [done|].
  rewrite (proj2 (Z.leb_le 0 i)), (proj2 (Z.ltb_lt i (len s))) by lia.
  simpl. by rewrite Hv.
Qed.

Lemma index_out_of_range (s : list string) i :
  len s <= i -> index s i = Panic (IndexOutOfRange i (List.length s)).
Proof.
  intros Hi. unfold index.
  rewrite (proj2 (Z.ltb_ge i (len s))) by lia.
  by rewrite andb_false_r.
Qed.

Lemma store_in_range (s : list string) i v :
  0 <= i < len s -> store s i v = Ret (<[Z.to_nat i := v]> s).
Proof.
  intros Hi. unfold store.
  by rewrite (proj2 (Z.leb_le 0 i)), (proj2 (Z.ltb_lt i (len s))) by lia.
Qed.

Lemma len_insert (s : list string) (i : nat) v : len (<[i := v]> s) = len s.
Proof. unfold len. by rewrite length_insert. Qed.

End SliceFacts.

Import stringqueue.

(** ** Dequeue *)

Section DequeueFacts.

Lemma advance_range q x :
  1 <= capacity q -> -1 <= x < capacity q -> 0 <= advance q x < capacity q.
Proof.
  intros Hc Hx. unfold advance.
  destruct (Z.eqb_spec (x + 1) (capacity q)); lia.
Qed.

Lemma advance_slot q : inbounds q -> advance q (tail q) = slot q 0.
Proof.
  intros [Hc _ _ Ht _]. unfold advance, slot. rewrite Z.add_0_r.
  destruct (Z.eqb_spec (tail q + 1) (capacity q)) as [->|Hne].
  - by rewrite Z_mod_same_full.
  - rewrite Z.mod_small; lia.
Qed.

(** [Dequeue] on a queue that holds nothing. *)
Lemma Dequeue_empty q :
  min_int < length q <= 0 ->
  Dequeue q = Ret (q, (""%string, errors_New "Queue empty")).
Proof.
  intros Hl. unfold Dequeue.
  rewrite int_sub_id by int_range.
  by rewrite (proj2 (Z.ltb_lt (length q - 1) 0)) by lia.
Qed.

(** [Dequeue] past its test: the access is in range and reads the slot
    after [tail]. *)
Lemma Dequeue_nonempty q :
  inbounds q -> 0 <= int_sub (length q) 1 ->
  exists v, data q !! Z.to_nat (slot q 0) = Some v /\
            Dequeue q = Ret (after_dequeue q, (v, nil_error)).
Proof.
  intros Hq Hl. pose proof (advance_slot q Hq) as Hslot.
  destruct Hq as [Hc Hd Hh Ht Hi]. unfold Dequeue.
  rewrite (ltb_false _ _ Hl).
  unfold set_tail, set_length; cbn [data head tail capacity length].
  rewrite int_add_id by int_range.
  pose proof (advance_range q (tail q) ltac:(lia) Ht) as Hadv.
  destruct (index_in_range (data q) (advance q (tail q)) ltac:(lia)) as (v & Hv & Hidx).
  exists v. rewrite <- Hslot. split; [done|].
  unfold after_dequeue. revert Hidx. unfold advance.
  destruct (Z.eqb_spec (tail q + 1) (capacity q)); intros Hidx;
    cbn [data head tail capacity length]; by rewrite Hidx.
Qed.

Lemma after_dequeue_inbounds q : inbounds q -> inbounds (after_dequeue q).
Proof.
  intros [Hc Hd Hh Ht Hi].
  pose proof (advance_range q (tail q) ltac:(lia) Ht).
  split; cbn [after_dequeue data head tail capacity length];
    [done | done | done | lia | apply wrap_is_int].
Qed.

Lemma after_dequeue_length q :
  is_int (length q) -> 1 <= length q -> length (after_dequeue q) = length q - 1.
Proof.
  intros Hi Hl. cbn [after_dequeue length].
  apply int_sub_id. int_range.
Qed.

Lemma slot_after_dequeue q k :
  inbounds q -> slot (after_dequeue q) k = slot q (k + 1).
Proof.
  intros [Hc _ _ Ht _]. unfold slot, after_dequeue, advance;
    cbn [data head tail capacity length].
  destruct (Z.eqb_spec (tail q + 1) (capacity q)) as [Heq|Hne].
  - replace (tail q + 1 + (k + 1)) with (0 + 1 + k + 1 * capacity q) by lia.
    by rewrite Z.mod_add by lia.
  - f_equal. lia.
Qed.

(** The contents of a queue are its oldest element followed by the
    contents after a [Dequeue]. *)
Lemma contents_cons q v :
  inbounds q -> 1 <= length q ->
  data q !! Z.to_nat (slot q 0) = Some v ->
  contents q = v :: contents (after_dequeue q).
Proof.
  intros Hq Hl Hv. unfold contents.
  rewrite (seqZ_cons 0 (length q)) by lia.
  rewrite fmap_cons, Hv. cbn [default]. f_equal.
  rewrite (after_dequeue_length q) by (apply Hq || done).
  replace (Z.pred (length q)) with (length q - 1) by lia.
  rewrite <- (fmap_add_seqZ 1 0), <- list_fmap_compose.
  apply list_fmap_ext. intros _ k _. cbn [compose].
  rewrite slot_after_dequeue by done. cbn [data after_dequeue].
  by rewrite (Z.add_comm 1 k).
Qed.

Lemma contents_empty q : length q <= 0 -> contents q = [].
Proof. intros Hl. unfold contents. by rewrite seqZ_nil. Qed.

End DequeueFacts.

(** ** resize *)

Section ResizeFacts.

(** The loop empties the queue and appends, after the entry value of [i],
    every element the queue held, oldest first. *)
Lemma resize_loop_returns (n : nat) : forall q new_data i fuel,
  inbounds q -> length q = Z.of_nat n -> (n < fuel)%nat ->
  exists t, -1 <= t < capacity q /\
    resize_loop fuel q new_data i =
      Ret (mkIntQueue (data q) (head q) t (capacity q) 0, new_data ++ i :: contents q).
Proof.
  induction n as [|n IH]; intros q new_data i [|fuel] Hq Hn Hfuel; try lia.
  - exists (tail q). split; [apply Hq|]. cbn [resize_loop].
    rewrite Dequeue_empty by (unfold min_int; lia). cbn.
    rewrite contents_empty by lia. destruct q; cbn in *. by subst.
  - pose proof (after_dequeue_length q (inbounds_length q Hq) ltac:(lia)) as Hlen.
    destruct (Dequeue_nonempty q Hq) as (v & Hv & Hdeq).
    { cbn [after_dequeue length] in Hlen. lia. }
    cbn [resize_loop]. rewrite Hdeq. cbn.
    destruct (IH (after_dequeue q) (append new_data i) v fuel) as (t & Ht & Hloop).
    { by apply after_dequeue_inbounds. }
    { lia. }
    { lia. }
    exists t. split; [done|]. rewrite Hloop. cbn. unfold append.
    rewrite (contents_cons q v) by (done || lia).
    by rewrite <- app_assoc.
Qed.

(** [resize] in closed form. *)
Lemma resize_returns new_capacity q :
  inbounds q -> 0 <= length q -> 0 <= new_capacity ->
  resize new_capacity q = Ret (after_resize new_capacity q).
Proof.
  intros Hq Hl Hn. unfold resize. rewrite make_returns, bind_Ret by done.
  destruct (resize_loop_returns (Z.to_nat (length q)) q
              (replicate (Z.to_nat new_capacity) ""%string) ""%string
              (S (Z.to_nat (length q))) Hq ltac:(lia) ltac:(lia)) as (t & _ & Hloop).
  rewrite Hloop, bind_Ret. cbn [length set_head set_tail set_capacity set_data].
  unfold set_data, set_capacity, set_tail, set_head; cbn [data head tail capacity length].
  by rewrite int_sub_0_1.
Qed.

End ResizeFacts.

(** ** Enqueue *)

Section EnqueueFacts.

Lemma Enqueue_put_returns i q :
  1 <= capacity q <= max_int -> capacity q <= len (data q) ->
  -1 <= head q < capacity q ->
  Enqueue_put i q = Ret (after_enqueue i q, nil_error).
Proof.
  intros Hc Hd Hh. unfold Enqueue_put, set_length, set_head.
  cbn [data head tail capacity length].
  rewrite (int_add_id (head q) 1) by int_range.
  pose proof (advance_range q (head q) ltac:(lia) Hh) as Hadv.
  pose proof (store_in_range (data q) (advance q (head q)) i ltac:(lia)) as Hst.
  unfold after_enqueue. revert Hst. unfold advance.
  destruct (Z.eqb_spec (head q + 1) (capacity q)); intros Hst;
    cbn [data head tail capacity length]; by rewrite Hst.
Qed.

Lemma Enqueue_not_full i q :
  inbounds q -> int_add (length q) 1 <= capacity q ->
  Enqueue i q = Ret (after_enqueue i q, nil_error).
Proof.
  intros Hq Hl. unfold Enqueue.
  rewrite Z.gtb_ltb, (ltb_false _ _ Hl).
  apply Enqueue_put_returns; apply Hq.
Qed.

Lemma Enqueue_exceeded i q :
  capacity q < int_add (length q) 1 -> int_mul (capacity q) 2 < 0 ->
  Enqueue i q = Ret (q, errors_New "Capacity exceeded").
Proof.
  intros Hfull Hneg. unfold Enqueue.
  by rewrite Z.gtb_ltb, (ltb_true _ _ Hfull), (ltb_true _ _ Hneg).
Qed.

(** A queue that the growth test finds full holds at least one element. *)
Lemma full_length_pos q :
  inbounds q -> capacity q < int_add (length q) 1 -> 1 <= length q.
Proof.
  intros Hq Hfull.
  pose proof (inbounds_capacity q Hq) as Hc.
  pose proof (inbounds_length q Hq) as Hi.
  destruct (Z_lt_le_dec (length q) max_int) as [Hlt|Hge].
  - rewrite int_add_id in Hfull by int_range. lia.
  - replace (length q) with max_int in Hfull by (unfold is_int in Hi; lia).
    rewrite int_add_max_int in Hfull. unfold min_int, max_int in *. lia.
Qed.

(** An [Enqueue] that grows the queue leaves one element in it, whatever
    it held before. *)
Lemma Enqueue_grow i q :
  inbounds q -> capacity q < int_add (length q) 1 -> 2 * capacity q <= max_int ->
  Enqueue i q = Ret (after_grow i q, nil_error).
Proof.
  intros Hq Hfull Hsmall. unfold Enqueue.
  rewrite Z.gtb_ltb, (ltb_true _ _ Hfull).
  pose proof (inbounds_capacity q Hq) as Hc.
  pose proof (full_length_pos q Hq Hfull) as Hl.
  rewrite int_mul_2_small by lia.
  rewrite ltb_false by lia.
  rewrite resize_returns, bind_Ret by (done || lia).
  rewrite Enqueue_put_returns.
  - unfold after_enqueue, after_resize, after_grow, advance.
    cbn [data head tail capacity length].
    destruct (Z.eqb_spec (-1 + 1) (2 * capacity q)); [lia|].
    by rewrite int_add_0_1.
  - cbn [capacity after_resize]. lia.
  - cbn [capacity data after_resize]. rewrite len_app, len_replicate by lia.
    pose proof (len_nonneg (""%string :: contents q)). lia.
  - cbn [capacity head after_resize]. lia.
Qed.

End EnqueueFacts.

(** ** Every slice access is in range *)

Section Safety.

Lemma NewWithCapacity_returns c :
  0 <= c ->
  NewWithCapacity c = Ret (mkIntQueue (replicate (Z.to_nat c) ""%string) (-1) (-1) c 0).
Proof. intros Hc. unfold NewWithCapacity. by rewrite make_returns. Qed.

Lemma NewWithCapacity_inbounds c :
  1 <= c <= max_int -> ensures (NewWithCapacity c) inbounds.
Proof.
  intros Hc. rewrite NewWithCapacity_returns by lia. apply ensures_Ret.
  split; cbn [data head tail capacity length]; try lia.
  - rewrite len_replicate; lia.
  - unfold is_int, min_int, max_int. lia.
Qed.

Lemma after_enqueue_inbounds i q : inbounds q -> inbounds (after_enqueue i q).
Proof.
  intros [Hc Hd Hh Ht Hi].
  pose proof (advance_range q (head q) ltac:(lia) Hh).
  split; cbn [after_enqueue data head tail capacity length];
    [done | by rewrite len_insert | lia | done | apply wrap_is_int].
Qed.

Lemma after_grow_inbounds i q :
  inbounds q -> 2 * capacity q <= max_int -> inbounds (after_grow i q).
Proof.
  intros [Hc Hd Hh Ht Hi] Hsmall.
  split; cbn [after_grow data head tail capacity length]; try lia.
  - rewrite len_insert, len_app, len_replicate by lia.
    pose proof (len_nonneg (""%string :: contents q)). lia.
  - unfold is_int, min_int, max_int. lia.
Qed.

(** The two ways [Dequeue] ends on a queue within bounds. *)
Lemma Dequeue_cases q :
  inbounds q ->
  (int_sub (length q) 1 < 0 /\
   Dequeue q = Ret (q, (""%string, errors_New "Queue empty"))) \/
  (0 <= int_sub (length q) 1 /\
   exists v, Dequeue q = Ret (after_dequeue q, (v, nil_error))).
Proof.
  intros Hq. destruct (Z_lt_le_dec (int_sub (length q) 1) 0) as [Hneg|Hpos].
  - left. split; [done|]. unfold Dequeue. by rewrite (ltb_true _ _ Hneg).
  - right. split; [done|].
    destruct (Dequeue_nonempty q Hq Hpos) as (v & _ & Hdeq). by exists v.
Qed.

(** The three ways [Enqueue] ends on a queue within bounds: the capacity
    cannot double, the queue grows, or there is room. *)
Lemma Enqueue_cases i q :
  inbounds q ->
  (capacity q < int_add (length q) 1 /\ max_int < 2 * capacity q /\
   Enqueue i q = Ret (q, errors_New "Capacity exceeded")) \/
  (capacity q < int_add (length q) 1 /\ 2 * capacity q <= max_int /\
   Enqueue i q = Ret (after_grow i q, nil_error)) \/
  (int_add (length q) 1 <= capacity q /\
   Enqueue i q = Ret (after_enqueue i q, nil_error)).
Proof.
  intros Hq. pose proof (inbounds_capacity q Hq) as Hc.
  destruct (Z_lt_le_dec (capacity q) (int_add (length q) 1)) as [Hfull|Hroom].
  - destruct (Z_lt_le_dec max_int (2 * capacity q)) as [Hbig|Hsmall].
    + left. repeat split; [done..|].
      apply Enqueue_exceeded; [done|]. apply int_mul_2_big; lia.
    + right. left. repeat split; [done..|]. by apply Enqueue_grow.
  - right. right. split; [done|]. by apply Enqueue_not_full.
Qed.

Lemma Dequeue_inbounds q :
  inbounds q -> ensures (Dequeue q) (fun r => inbounds r.1).
Proof.
  intros Hq. destruct (Dequeue_cases q Hq) as [[_ ->]|[_ [v ->]]];
    apply ensures_Ret; [done|by apply after_dequeue_inbounds].
Qed.

Lemma Enqueue_inbounds i q :
  inbounds q -> ensures (Enqueue i q) (fun r => inbounds r.1).
Proof.
  intros Hq.
  destruct (Enqueue_cases i q Hq) as [(_ & _ & ->)|[(_ & Hsmall & ->)|(_ & ->)]];
    apply ensures_Ret;
    [done | by apply after_grow_inbounds | by apply after_enqueue_inbounds].
Qed.

Lemma do_call_inbounds c q :
  inbounds q -> ensures (do_call c q) (fun r => inbounds r.1).
Proof.
  intros Hq. destruct c as [i|]; cbn [do_call].
  - eapply ensures_bind; [by apply Enqueue_inbounds|].
    intros [q' err] Hq'. by apply ensures_Ret.
  - eapply ensures_bind; [by apply Dequeue_inbounds|].
    intros [q' [v err]] Hq'. by apply ensures_Ret.
Qed.

Lemma do_calls_inbounds cs : forall q,
  inbounds q -> ensures (do_calls cs q) (fun r => inbounds r.1).
Proof.
  induction cs as [|c cs IH]; intros q Hq; cbn [do_calls].
  - by apply ensures_Ret.
  - eapply ensures_bind; [by apply do_call_inbounds|].
    intros [q1 r] Hq1. eapply ensures_bind; [by apply IH|].
    intros [q2 rs] Hq2. by apply ensures_Ret.
Qed.

(** *** The bounds of [length] *)

Lemma Dequeue_bounded q :
  inbounds q -> bounded q -> ensures (Dequeue q) (fun r => bounded r.1).
Proof.
  intros Hq [Hl Hc].
  destruct (Dequeue_cases q Hq) as [[_ ->]|[Hpos [v ->]]]; apply ensures_Ret; [done|].
  assert (1 <= length q) as Hl1.
  { destruct (Z_lt_le_dec (length q) 1); [|done].
    rewrite int_sub_id in Hpos by int_range. lia. }
  split; cbn [fst after_dequeue capacity length]; [|done].
  rewrite int_sub_id by int_range. lia.
Qed.

Lemma Enqueue_bounded i q :
  inbounds q -> bounded q -> ensures (Enqueue i q) (fun r => bounded r.1).
Proof.
  intros Hq [Hl Hc]. pose proof (inbounds_capacity q Hq) as Hcap.
  destruct (Enqueue_cases i q Hq) as [(_ & _ & ->)|[(_ & Hsmall & ->)|(Hroom & ->)]];
    apply ensures_Ret; [done| |].
  - split; cbn [fst after_grow capacity length]; int_range.
  - rewrite int_add_id in Hroom by int_range.
    split; cbn [fst after_enqueue capacity length]; [|done].
    rewrite int_add_id by int_range. lia.
Qed.

Lemma do_calls_bounded cs : forall q,
  inbounds q -> bounded q ->
  ensures (do_calls cs q) (fun r => inbounds r.1 /\ bounded r.1).
Proof.
  induction cs as [|c cs IH]; intros q Hq Hb; cbn [do_calls].
  - by apply ensures_Ret.
  - apply (ensures_bind _ _ (fun r => inbounds r.1 /\ bounded r.1)).
    + destruct c as [i|]; cbn [do_call].
      * destruct (Enqueue_inbounds i q Hq) as ([q1 e] & Hrun & Hq1).
        destruct (Enqueue_bounded i q Hq Hb) as (r & Hrun' & Hb1).
        rewrite Hrun in Hrun'. injection Hrun' as <-.
        rewrite Hrun. by apply ensures_Ret.
      * destruct (Dequeue_inbounds q Hq) as ([q1 [v e]] & Hrun & Hq1).
        destruct (Dequeue_bounded q Hq Hb) as (r & Hrun' & Hb1).
        rewrite Hrun in Hrun'. injection Hrun' as <-.
        rewrite Hrun. by apply ensures_Ret.
    + intros [q1 r] [Hq1 Hb1]. eapply ensures_bind; [by apply IH|].
      intros [q2 rs] Hq2. by apply ensures_Ret.
Qed.

(** X3. Every queue built with a capacity from 1 to [max_int - 1] stays
    within bounds and keeps [0 <= length <= capacity], growth included. *)
Lemma session_bounded c cs :
  1 <= c < max_int ->
  ensures (session c cs) (fun r => inbounds r.1 /\ bounded r.1).
Proof.
  intros Hc. unfold session.
  destruct (NewWithCapacity_inbounds c ltac:(lia)) as (q0 & Hnew & Hq0).
  rewrite Hnew, bind_Ret. apply do_calls_bounded; [done|].
  rewrite NewWithCapacity_returns in Hnew by lia. injection Hnew as <-.
  split; cbn [capacity length]; lia.
Qed.

End Safety.

(** ** The queue against the FIFO list, as long as it does not grow *)

Section Refinement.

(** Stepping an index with the test against [capacity] is stepping it
    modulo [capacity]. *)
Lemma advance_mod q x :
  1 <= capacity q -> -1 <= x < capacity q -> advance q x = (x + 1) mod capacity q.
Proof.
  intros Hc Hx. unfold advance.
  destruct (Z.eqb_spec (x + 1) (capacity q)) as [->|Hne].
  - by rewrite Z_mod_same_full.
  - rewrite Z.mod_small; lia.
Qed.

Lemma mod_small_eq a b c :
  0 <= a < c -> 0 <= b < c -> a mod c = b mod c -> a = b.
Proof. intros Ha Hb. rewrite !Z.mod_small; lia. Qed.

(** Among the slots within reach only the one after the last element is
    where [Enqueue] stores. *)
Lemma slot_head q k :
  inbounds q -> (head q - tail q) mod capacity q = length q mod capacity q ->
  0 <= k < capacity q -> 0 <= length q < capacity q ->
  slot q k = advance q (head q) -> k = length q.
Proof.
  intros Hq Hh Hk Hl Heq.
  pose proof (inbounds_capacity q Hq) as Hc.
  rewrite advance_mod in Heq by (lia || apply Hq). unfold slot in Heq.
  apply (mod_small_eq k (length q) (capacity q)); [lia|lia|].
  rewrite <- Hh.
  replace k with ((tail q + 1 + k) - (tail q + 1)) by lia.
  replace (head q - tail q) with ((head q + 1) - (tail q + 1)) by lia.
  rewrite (Zminus_mod (tail q + 1 + k)), Heq, <- Zminus_mod. done.
Qed.

(** [Enqueue] stores at the slot after the last element. *)
Lemma slot_length q :
  inbounds q -> (head q - tail q) mod capacity q = length q mod capacity q ->
  slot q (length q) = advance q (head q).
Proof.
  intros Hq Hh.
  pose proof (inbounds_capacity q Hq) as Hc.
  rewrite advance_mod by (lia || apply Hq). unfold slot.
  replace (tail q + 1 + length q) with ((tail q + 1) + length q) by lia.
  rewrite Zplus_mod, <- Hh, <- Zplus_mod. f_equal. lia.
Qed.

(** The invariant holds after construction. *)
Lemma rep_inv_new c :
  1 <= c -> rep_inv [] (mkIntQueue (replicate (Z.to_nat c) ""%string) (-1) (-1) c 0).
Proof.
  intros Hc. split; cbn [data head tail capacity length].
  - done.
  - lia.
  - intros k v Hk. by rewrite lookup_nil in Hk.
  - done.
Qed.

Lemma rep_inv_dequeue_empty q :
  rep_inv [] q -> Dequeue q = Ret (q, (""%string, errors_New "Queue empty")).
Proof.
  intros [Hcount _ _ _]. apply Dequeue_empty.
  rewrite Hcount. unfold min_int, len. cbn [List.length]. lia.
Qed.

(** [Dequeue] returns the oldest element and keeps the invariant. *)
Lemma rep_inv_dequeue q v live :
  inbounds q -> rep_inv (v :: live) q ->
  Dequeue q = Ret (after_dequeue q, (v, nil_error)) /\
  rep_inv live (after_dequeue q).
Proof.
  intros Hq [Hcount Hbound Hslots Hhead].
  pose proof (inbounds_capacity q Hq) as Hc.
  assert (length q = len live + 1) as Hlen.
  { rewrite Hcount. unfold len. cbn [List.length]. lia. }
  pose proof (len_nonneg live) as Hnn.
  pose proof (after_dequeue_length q (inbounds_length q Hq) ltac:(lia)) as Hlen'.
  assert ((head (after_dequeue q) - tail (after_dequeue q)) mod capacity (after_dequeue q)
          = length (after_dequeue q) mod capacity (after_dequeue q)) as Hhead'.
  { rewrite Hlen'. cbn [after_dequeue head tail capacity].
    rewrite advance_mod by (lia || apply Hq).
    rewrite Zminus_mod_idemp_r.
    replace (head q - (tail q + 1)) with ((head q - tail q) - 1) by lia.
    by rewrite <- Zminus_mod_idemp_l, Hhead, Zminus_mod_idemp_l. }
  clear Hhead.
  destruct (Dequeue_nonempty q Hq) as (v' & Hv' & Hdeq).
  { cbn [after_dequeue length] in Hlen'. lia. }
  pose proof (Hslots 0%nat v eq_refl) as Hv. change (Z.of_nat 0) with 0 in Hv.
  rewrite Hv in Hv'. injection Hv' as <-.
  split; [done|]. split; [lia | cbn [after_dequeue capacity]; lia | | done].
  intros k w Hk. rewrite slot_after_dequeue by done.
  cbn [after_dequeue data].
  replace (Z.of_nat k + 1) with (Z.of_nat (S k)) by lia.
  by apply Hslots.
Qed.

(** An [Enqueue] that finds room adds the element at the end and keeps the
    invariant. *)
Lemma rep_inv_enqueue i q live :
  inbounds q -> rep_inv live q -> length q < capacity q ->
  Enqueue i q = Ret (after_enqueue i q, nil_error) /\
  rep_inv (live ++ [i]) (after_enqueue i q).
Proof.
  intros Hq [Hcount Hbound Hslots Hhead] Hroom.
  pose proof (inbounds_capacity q Hq) as Hc.
  assert (int_add (length q) 1 = length q + 1) as Hadd.
  { apply int_add_id. int_range. }
  split; [apply Enqueue_not_full; [done|lia]|].
  pose proof (advance_range q (head q) ltac:(lia) (inbounds_head q Hq)) as Hadv.
  pose proof (inbounds_data q Hq) as Hd.
  pose proof (slot_length q Hq Hhead) as Hlast.
  assert (forall k, 0 <= k < length q -> slot q k <> advance q (head q)) as Hfree.
  { intros k Hk Heq. apply slot_head in Heq; try done; lia. }
  split; cbn [after_enqueue data head tail capacity length].
  - rewrite Hadd, Hcount, len_app. unfold len. cbn [List.length]. lia.
  - lia.
  - clear Hhead. intros k w Hk.
    change (slot (after_enqueue i q) (Z.of_nat k)) with (slot q (Z.of_nat k)).
    assert (0 <= slot q (Z.of_nat k) < capacity q) as Hslot
      by (apply Z.mod_pos_bound; lia).
    destruct (decide (k < List.length live)%nat) as [Hlt|Hge].
    + rewrite lookup_app_l in Hk by done.
      rewrite list_lookup_insert_ne; [by apply Hslots|].
      intros Heq. apply Z2Nat.inj in Heq; [|lia|lia].
      symmetry in Heq. revert Heq. apply Hfree. unfold len in *. lia.
    + rewrite lookup_app_r in Hk by lia.
      destruct (k - List.length live)%nat as [|n] eqn:Hn; [|by destruct n].
      injection Hk as <-.
      replace (Z.of_nat k) with (length q) by (unfold len in *; lia).
      rewrite Hlast.
      apply list_lookup_insert_eq. unfold len in *. lia.
  - rewrite Hadd. rewrite advance_mod by (lia || apply Hq).
    rewrite Zminus_mod_idemp_l.
    replace (head q + 1 - tail q) with ((head q - tail q) + 1) by lia.
    by rewrite <- Zplus_mod_idemp_l, Hhead, Zplus_mod_idemp_l.
Qed.

Lemma do_call_refines_fifo c q live :
  inbounds q -> rep_inv live q ->
  (forall i, c = CallEnqueue i -> len live < capacity q) ->
  exists q',
    do_call c q = Ret (q', (fifo_call c live).2) /\
    rep_inv (fifo_call c live).1 q' /\ inbounds q' /\ capacity q' = capacity q.
Proof.
  intros Hq Hrep Hroom. destruct c as [i|]; cbn [do_call fifo_call].
  - destruct (rep_inv_enqueue i q live Hq Hrep) as [-> Hrep'].
    { rewrite (rep_count live q Hrep). by apply (Hroom i). }
    exists (after_enqueue i q). split; [done|]. split; [done|].
    split; [by apply after_enqueue_inbounds|done].
  - destruct live as [|v live].
    + rewrite (rep_inv_dequeue_empty q Hrep). by exists q.
    + destruct (rep_inv_dequeue q v live Hq Hrep) as [-> Hrep'].
      exists (after_dequeue q). split; [done|]. split; [done|].
      split; [by apply after_dequeue_inbounds|done].
Qed.

(** As long as no [Enqueue] finds the queue full, the code answers its
    calls as the FIFO list does, and keeps the invariant and the capacity. *)
Lemma do_calls_refine_fifo cs : forall q live,
  inbounds q -> rep_inv live q -> within (capacity q) cs live ->
  exists q',
    do_calls cs q = Ret (q', (fifo_calls cs live).2) /\
    rep_inv (fifo_calls cs live).1 q' /\ inbounds q' /\ capacity q' = capacity q.
Proof.
  induction cs as [|c cs IH]; intros q live Hq Hrep Hin.
  - by exists q.
  - destruct Hin as [Hroom Hin]. cbn [do_calls fifo_calls].
    destruct (do_call_refines_fifo c q live Hq Hrep) as (q1 & -> & Hrep1 & Hq1 & Hcap1).
    { intros i ->. done. }
    destruct (fifo_call c live) as [live1 r] eqn:Hc. cbn [fst snd] in *.
    destruct (IH q1 live1 Hq1 Hrep1) as (q2 & Hrun & Hrep2 & Hq2 & Hcap2).
    { by rewrite Hcap1. }
    rewrite bind_Ret. rewrite Hrun.
    destruct (fifo_calls cs live1) as [live2 rs]. cbn [fst snd] in *.
    exists q2. split; [done|]. split; [done|]. split; [done|congruence].
Qed.

Lemma fifo_calls_app cs1 : forall cs2 live,
  fifo_calls (cs1 ++ cs2) live =
    ((fifo_calls cs2 (fifo_calls cs1 live).1).1,
     (fifo_calls cs1 live).2 ++ (fifo_calls cs2 (fifo_calls cs1 live).1).2).
Proof.
  induction cs1 as [|c cs1 IH]; intros cs2 live; cbn [fifo_calls app fst snd].
  - by destruct (fifo_calls cs2 live).
  - destruct (fifo_call c live) as [live1 r]. rewrite IH.
    destruct (fifo_calls cs1 live1) as [live2 rs]. cbn [fst snd].
    by destruct (fifo_calls cs2 live2).
Qed.

Lemma fifo_calls_enqueues vs : forall live,
  fifo_calls (enqueues vs) live = (live ++ vs, enqueued vs).
Proof.
  induction vs as [|v vs IH]; intros live; cbn.
  - by rewrite app_nil_r.
  - unfold enqueues in IH. rewrite IH. by rewrite <- app_assoc.
Qed.

Lemma fifo_calls_dequeues vs : forall rest,
  fifo_calls (dequeues (List.length vs)) (vs ++ rest) = (rest, dequeued vs).
Proof.
  induction vs as [|v vs IH]; intros rest; cbn; [done|].
  unfold dequeues in IH. by rewrite IH.
Qed.

Lemma within_app cap cs1 : forall cs2 live,
  within cap cs1 live -> within cap cs2 (fifo_calls cs1 live).1 ->
  within cap (cs1 ++ cs2) live.
Proof.
  induction cs1 as [|c cs1 IH]; intros cs2 live H1 H2; cbn [app within] in *; [done|].
  destruct H1 as [Hc H1]. split; [done|]. cbn [fifo_calls] in H2.
  destruct (fifo_call c live) as [live1 r]. cbn [fst] in *.
  apply IH; [done|]. by destruct (fifo_calls cs1 live1).
Qed.

Lemma within_enqueues cap vs : forall live,
  len live + len vs <= cap -> within cap (enqueues vs) live.
Proof.
  induction vs as [|v vs IH]; intros live Hle; cbn; [done|].
  unfold len in *. cbn [List.length] in Hle. split; [lia|].
  apply IH. rewrite length_app. cbn [List.length]. lia.
Qed.

Lemma within_dequeues cap n : forall live, within cap (dequeues n) live.
Proof. induction n as [|n IH]; intros live; cbn; [done|]. split; [done|]. apply IH. Qed.

(** X1. Up to the capacity it was built with, the queue gives back what it
    was given, in order. *)
Theorem fifo_within_capacity (c : Z) (vs : list string) :
  1 <= c <= max_int -> len vs <= c ->
  exists q,
    session c (enqueues vs ++ dequeues (List.length vs)) = Ret (q, enqueued vs ++ dequeued vs).
Proof.
  intros Hc Hvs. unfold session.
  destruct (NewWithCapacity_inbounds c Hc) as (q0 & Hnew & Hq0).
  rewrite Hnew, bind_Ret.
  rewrite NewWithCapacity_returns in Hnew by lia. injection Hnew as <-.
  destruct (do_calls_refine_fifo (enqueues vs ++ dequeues (List.length vs)) _ []
              Hq0 (rep_inv_new c ltac:(lia))) as (q & Hrun & _).
  { apply within_app; [apply within_enqueues; unfold len in *; cbn [List.length capacity]; lia|apply within_dequeues]. }
  exists q. rewrite Hrun. f_equal. f_equal.
  pose proof (fifo_calls_dequeues vs []) as Hdeq. rewrite app_nil_r in Hdeq.
  rewrite fifo_calls_app, fifo_calls_enqueues. cbn [fst snd app].
  by rewrite Hdeq.
Qed.

End Refinement.

(** ** The claims about the queue that the code meets *)

Section QueueClaims.

Lemma Enqueue_put_error i q q' e : Enqueue_put i q = Ret (q', e) -> e = nil_error.
Proof.
  unfold Enqueue_put. intros H.
  apply bind_Ret_inv in H as (d & _ & H). by inversion H.
Qed.

(** C6. For a queue whose capacity is a non-negative [int] and whose length
    is an [int] below the largest one, [Enqueue] returns the error
    "Capacity exceeded", leaving every field of the queue as it was, when
    [length+1 > capacity] and twice the capacity is above the largest
    [int]; and it returns an error in no other case. *)
Theorem Enqueue_capacity_exceeded (i : string) (q : IntQueue) :
  0 <= capacity q <= max_int -> min_int <= length q < max_int ->
  (length q + 1 > capacity q /\ max_int < 2 * capacity q ->
     Enqueue i q = Ret (q, errors_New "Capacity exceeded")) /\
  (forall q' e, Enqueue i q = Ret (q', Some e) ->
     length q + 1 > capacity q /\ max_int < 2 * capacity q).
Proof.
  intros Hc Hl.
  assert (int_add (length q) 1 = length q + 1) as Hadd.
  { apply int_add_id. int_range. }
  split.
  - intros [Hfull Hbig]. apply Enqueue_exceeded; [lia|].
    by apply int_mul_2_big.
  - intros q' e. unfold Enqueue. rewrite Z.gtb_ltb, Hadd.
    destruct (Z.ltb_spec (capacity q) (length q + 1)) as [Hfull|Hroom].
    + destruct (Z.ltb_spec (int_mul (capacity q) 2) 0) as [Hneg|Hpos].
      * intros _. split; [lia|].
        apply int_mul_2_neg; [done|]. by apply Z.ltb_lt.
      * intros H. apply bind_Ret_inv in H as (q1 & _ & H).
        by apply Enqueue_put_error in H.
    + intros H. by apply Enqueue_put_error in H.
Qed.

Lemma Enqueue_capacity_exceeded_witness :
  let q := mkIntQueue [] (2 ^ 62 - 1) (-1) (2 ^ 62) (2 ^ 62) in
  Enqueue "x" q = Ret (q, errors_New "Capacity exceeded").
Proof.
  intros q.
  apply (proj1 (Enqueue_capacity_exceeded "x" q
                  ltac:(evaluated) ltac:(evaluated))).
  evaluated.
Defined.

(** C7. On a queue within bounds whose length is not negative, [Dequeue]
    returns the empty string and the error "Queue empty", leaving the queue
    as it was, when [length] is 0; otherwise it returns the string at the
    slot after [tail] and no error, and [length] is one less. *)
Theorem Dequeue_fails_iff_empty (q : IntQueue) :
  inbounds q -> 0 <= length q ->
  (length q = 0 ->
     Dequeue q = Ret (q, (""%string, errors_New "Queue empty"))) /\
  (length q <> 0 ->
     exists v,
       data q !! Z.to_nat (advance q (tail q)) = Some v /\
       Dequeue q =
         Ret (mkIntQueue (data q) (head q) (advance q (tail q)) (capacity q)
                (length q - 1), (v, nil_error))).
Proof.
  intros Hq Hl. split.
  - intros H0. apply Dequeue_empty. unfold min_int. lia.
  - intros Hne.
    pose proof (after_dequeue_length q (inbounds_length q Hq) ltac:(lia)) as Hlen.
    cbn [after_dequeue length] in Hlen.
    destruct (Dequeue_nonempty q Hq ltac:(lia)) as (v & Hv & Hdeq).
    exists v. rewrite <- advance_slot in Hv by done. split; [done|].
    rewrite Hdeq. unfold after_dequeue. by rewrite Hlen.
Qed.

Lemma Dequeue_fails_iff_empty_witness :
  let q := mkIntQueue ["a"; "b"]%string 1 (-1) 2 2 in
  exists v,
    data q !! Z.to_nat (advance q (tail q)) = Some v /\
    Dequeue q =
      Ret (mkIntQueue (data q) (head q) (advance q (tail q)) (capacity q)
             (length q - 1), (v, nil_error)).
Proof.
  intros q.
  assert (inbounds q) as Hq by (split; evaluated).
  assert (0 <= length q) as Hl by evaluated.
  assert (length q <> 0) as Hne by evaluated.
  exact (proj2 (Dequeue_fails_iff_empty q Hq Hl) Hne).
Defined.

(** C8. On a queue within bounds that is full ([length+1 > capacity], with
    [length] at most [capacity]) and whose doubled capacity fits an [int],
    [Enqueue] calls [resize] once, with twice the capacity, and returns
    without error a queue whose capacity is exactly twice what it was. *)
Theorem Enqueue_doubles_capacity (i : string) (q : IntQueue) :
  inbounds q -> length q <= capacity q -> length q + 1 > capacity q ->
  2 * capacity q <= max_int ->
  Enqueue i q = (q1 ← resize (2 * capacity q) q; Enqueue_put i q1) /\
  exists q', Enqueue i q = Ret (q', nil_error) /\ capacity q' = 2 * capacity q.
Proof.
  intros Hq Hle Hfull Hsmall.
  pose proof (inbounds_capacity q Hq) as Hc.
  pose proof (inbounds_length q Hq) as Hi.
  assert (capacity q < int_add (length q) 1) as Hfull'.
  { rewrite int_add_id by int_range. lia. }
  split.
  - unfold Enqueue. rewrite Z.gtb_ltb, (ltb_true _ _ Hfull').
    rewrite int_mul_2_small by lia. by rewrite ltb_false by lia.
  - exists (after_grow i q). split; [by apply Enqueue_grow|done].
Qed.

Lemma Enqueue_doubles_capacity_witness :
  let q := mkIntQueue ["a"; "b"]%string 1 (-1) 2 2 in
  exists q', Enqueue "c" q = Ret (q', nil_error) /\ capacity q' = 4.
Proof.
  intros q.
  assert (inbounds q) as Hq by (split; evaluated).
  assert (length q <= capacity q) as Hle by evaluated.
  assert (length q + 1 > capacity q) as Hfull by evaluated.
  assert (2 * capacity q <= max_int) as Hsmall by evaluated.
  exact (proj2 (Enqueue_doubles_capacity "c" q Hq Hle Hfull Hsmall)).
Defined.

(** C10. A queue built by [NewWithCapacity c] with [c >= 1] runs every
    sequence of [Enqueue] and [Dequeue] calls to the end: no slice access,
    those of the loop of [resize] included, is out of range, and the queue
    stays within bounds. With [c = 0] it does not: an [Enqueue] followed by
    a [Dequeue] reads index 1 of a slice of length 1. *)
Theorem slice_accesses_in_range :
  (forall c cs, 1 <= c <= max_int ->
     exists q rs, session c cs = Ret (q, rs) /\ inbounds q) /\
  session 0 [CallEnqueue "a"; CallDequeue] = Panic (IndexOutOfRange 1 1).
Proof.
  split.
  - intros c cs Hc. unfold session.
    destruct (NewWithCapacity_inbounds c Hc) as (q0 & -> & Hq0).
    rewrite bind_Ret.
    destruct (do_calls_inbounds cs q0 Hq0) as ([q rs] & -> & Hq).
    by exists q, rs.
  - vm_compute. reflexivity.
Qed.

Lemma slice_accesses_in_range_witness :
  1 <= 1 <= max_int /\
  exists q rs,
    session 1 [CallEnqueue "a"; CallEnqueue "b"; CallDequeue] = Ret (q, rs) /\
    inbounds q.
Proof.
  assert (1 <= 1 <= max_int) as H by evaluated.
  split; [exact H|].
  exact (proj1 slice_accesses_in_range 1
           [CallEnqueue "a"; CallEnqueue "b"; CallDequeue] H).
Defined.

End QueueClaims.

(** ** What growth does to the elements *)

Section Growth.

(** Whatever the queue holds, [resize] leaves a queue that reports itself
    empty: [length] is 0 after the loop and is not set back, [head] is
    computed from that 0, and the elements sit behind [new_capacity + 1]
    empty strings, where neither index reaches them before the next
    growth. *)
Lemma resize_leaves_empty_queue new_capacity q :
  inbounds q -> 0 <= length q -> 0 <= new_capacity ->
  exists q', resize new_capacity q = Ret q' /\
    length q' = 0 /\ head q' = -1 /\ tail q' = 0 /\ capacity q' = new_capacity /\
    Dequeue q' = Ret (q', (""%string, errors_New "Queue empty")).
Proof.
  intros Hq Hl Hn. exists (after_resize new_capacity q).
  split; [by apply resize_returns|]. repeat split.
Qed.

(** C1. A queue of capacity 2 takes "a" and "b", gives "a" back and takes
    "c": it holds "b" and "c", around the end of the array. [resize 4]
    then leaves [length] 0 instead of 2, and the next [Dequeue] reports
    "Queue empty". Through [Enqueue]: after a fourth string "d" the three
    [Dequeue] calls return the empty string, then "Queue empty" twice, and
    neither "b" nor "c". *)
Theorem resize_loses_live_elements :
  let q := mkIntQueue ["c"; "b"]%string 0 0 2 2 in
  let q' := mkIntQueue [""; ""; ""; ""; ""; "b"; "c"]%string (-1) 0 4 0 in
  session 2 [CallEnqueue "a"; CallEnqueue "b"; CallDequeue; CallEnqueue "c"]
    = Ret (q, [EnqueueReturned None; EnqueueReturned None;
               DequeueReturned "a" None; EnqueueReturned None]) /\
  resize 4 q = Ret q' /\
  length q = 2 /\ length q' = 0 /\
  Dequeue q' = Ret (q', (""%string, errors_New "Queue empty")) /\
  (r ← do_calls (CallEnqueue "d" :: dequeues 3) q; mret r.2)
    = Ret [EnqueueReturned None; DequeueReturned "" None;
           DequeueReturned "" (Some "Queue empty"%string);
           DequeueReturned "" (Some "Queue empty"%string)].
Proof. vm_compute. repeat split. Qed.

(** C2. [New()] has capacity 32. The 33 distinct strings of [TestFill] are
    enqueued without error and leave the capacity at 64, but the first
    [Dequeue] after them returns the empty string and every later one the
    error "Queue empty": none of the 33 strings comes back. *)
Theorem fill_then_drain :
  NoDup fill_values /\
  exists q,
    (q0 ← New; do_calls (enqueues fill_values ++ dequeues 34) q0)
      = Ret (q, enqueued fill_values ++
                DequeueReturned "" None ::
                replicate 33 (DequeueReturned "" (Some "Queue empty"%string))) /\
    capacity q = 64.
Proof.
  split.
  - apply (bool_decide_unpack _). vm_compute. reflexivity.
  - eexists. split; [vm_compute; reflexivity|reflexivity].
Qed.

(** C3. With capacity 1, two [Enqueue] calls followed by two [Dequeue]
    calls do not give "a" and "b" back: the first [Dequeue] returns the
    empty string and the second the error "Queue empty". *)
Theorem fifo_lost_past_capacity :
  let vs := ["a"; "b"]%string in
  exists q,
    session 1 (enqueues vs ++ dequeues (List.length vs))
      = Ret (q, enqueued vs ++
                [DequeueReturned "" None;
                 DequeueReturned "" (Some "Queue empty"%string)]) /\
    enqueued vs ++ [DequeueReturned "" None;
                    DequeueReturned "" (Some "Queue empty"%string)]
      <> enqueued vs ++ dequeued vs.
Proof.
  intros vs. eexists. split; [vm_compute; reflexivity|].
  vm_compute. discriminate.
Qed.

(** C4. With capacity 1, after two [Enqueue] calls the client holds "a" and
    "b" in the queue, and the queue is in a state that breaks every part of
    the representation invariant but the bounds of [length]: [length] is 1,
    not 2; the slot after [tail] holds the empty string, not "a"; and
    [head] is not [length] steps ahead of [tail]. *)
Theorem growth_breaks_rep_inv :
  let cs := enqueues ["a"; "b"]%string in
  let q := mkIntQueue ["b"; ""; ""; "a"]%string 0 0 2 1 in
  let rs := [EnqueueReturned None; EnqueueReturned None] in
  session 1 cs = Ret (q, rs) /\
  live_elements cs rs = ["a"; "b"]%string /\
  length q <> len (live_elements cs rs) /\
  data q !! Z.to_nat (slot q 0) <> live_elements cs rs !! 0%nat /\
  (head q - tail q) mod capacity q <> length q mod capacity q /\
  ~ rep_inv (live_elements cs rs) q.
Proof.
  vm_compute. repeat split; try discriminate.
  intros [Hcount _ _ _]. vm_compute in Hcount. discriminate.
Qed.

(** C5. A queue of capacity 2 that has taken "a" and "b" is full. At the
    end of [resize 4] on it, [tail] is 0, [capacity] is 4 and the new array
    is in place, but [head] is -1, one less than the [length] the loop has
    left (0), and not 1, one less than the [length] before the loop (2). *)
Theorem resize_head_from_drained_length :
  let q := mkIntQueue ["a"; "b"]%string 1 (-1) 2 2 in
  session 2 (enqueues ["a"; "b"]%string) = Ret (q, enqueued ["a"; "b"]%string) /\
  exists q',
    resize 4 q = Ret q' /\
    tail q' = 0 /\ capacity q' = 4 /\
    data q' = [""; ""; ""; ""; ""; "a"; "b"]%string /\
    length q' = 0 /\ head q' = -1 /\ head q' <> length q - 1.
Proof.
  intros q. split; [vm_compute; reflexivity|].
  eexists. split; [vm_compute; reflexivity|].
  vm_compute. repeat split; discriminate.
Qed.

End Growth.

(** ** The max-heap scenario *)

Section HeapScenario.

Import maxheap.

(** C9. On a fresh heap, after [Insert] of 5, 10, 20 and 7, [Peek] returns
    20; four [Delete] calls return 20, 10, 7 and 5; and a fifth fails with
    [HeapEmpty]. The backing slices are those the tests expect. *)
Theorem heap_scenario :
  exists h h',
    insert_all [5; 10; 20; 7] New = Ret h /\
    maxheap.data h = [0; 20; 7; 10; 5] /\
    Peek h = (20, None) /\
    delete_n 5 h =
      Ret (h', [(20, None); (10, None); (7, None); (5, None); (0, Some HeapEmpty)]) /\
    h' = mkMaxHeap [0] 0.
Proof. do 2 eexists. vm_compute. repeat split. Qed.

End HeapScenario.

(** ** Further properties of the queue *)

Section FilledQueues.

Lemma int_sub_1_1 : int_sub 1 1 = 0.
Proof. vm_compute. reflexivity. Qed.

Lemma filled_inbounds c vs :
  1 <= c <= max_int -> len vs <= c -> inbounds (filled c vs).
Proof.
  intros Hc Hvs. pose proof (len_nonneg vs) as Hnn.
  split; cbn [filled data head tail capacity length]; try lia.
  - rewrite len_app. unfold len in *. rewrite length_replicate. lia.
  - int_range.
Qed.

Lemma NewWithCapacity_filled c : 0 <= c -> NewWithCapacity c = Ret (filled c []).
Proof.
  intros Hc. rewrite NewWithCapacity_returns by done. unfold filled.
  cbn [List.length app]. by rewrite Nat.sub_0_r.
Qed.

(** An [Enqueue] with room on a filled queue puts the string after the
    others. *)
Lemma after_enqueue_filled c vs v :
  c <= max_int -> len vs < c -> after_enqueue v (filled c vs) = filled c (vs ++ [v]).
Proof.
  intros Hc Hvs. pose proof (len_nonneg vs) as Hnn.
  unfold after_enqueue, filled, advance. cbn [data head tail capacity length].
  rewrite len_app. change (len [v]) with 1.
  destruct (Z.eqb_spec (len vs - 1 + 1) c) as [Heq|_]; [lia|].
  rewrite int_add_id by (unfold len in *; int_range).
  replace (len vs + 1 - 1) with (len vs - 1 + 1) by lia.
  f_equal.
  replace (Z.to_nat (len vs - 1 + 1)) with (List.length vs + 0)%nat by (unfold len; lia).
  rewrite insert_app_r, length_app. cbn [List.length].
  destruct (Z.to_nat c - List.length vs)%nat as [|m] eqn:Hm; [unfold len in *; lia|].
  replace (Z.to_nat c - (List.length vs + 1))%nat with m by lia.
  cbn. by rewrite <- app_assoc.
Qed.

Lemma do_calls_enqueues_filled c vs : forall xs,
  1 <= c <= max_int -> len xs + len vs <= c ->
  do_calls (enqueues vs) (filled c xs) = Ret (filled c (xs ++ vs), enqueued vs).
Proof.
  induction vs as [|v vs IH]; intros xs Hc Hle.
  - cbn. by rewrite app_nil_r.
  - pose proof (len_nonneg xs) as Hxs. pose proof (len_nonneg vs) as Hvs.
    assert (len (v :: vs) = 1 + len vs) as Hcons by (unfold len; cbn [List.length]; lia).
    rewrite Hcons in Hle.
    change (enqueues (v :: vs)) with (CallEnqueue v :: enqueues vs).
    cbn [do_calls do_call].
    rewrite Enqueue_not_full.
    + rewrite !bind_Ret. rewrite after_enqueue_filled by lia.
      rewrite IH; [|done|rewrite len_app; change (len [v]) with 1; lia].
      rewrite bind_Ret. by rewrite <- app_assoc.
    + apply filled_inbounds; [done|lia].
    + cbn [filled length capacity]. rewrite int_add_id by int_range. lia.
Qed.

Lemma do_calls_app cs1 : forall cs2 q,
  do_calls (cs1 ++ cs2) q =
    '(q1, rs1) ← do_calls cs1 q;
    '(q2, rs2) ← do_calls cs2 q1;
    mret (q2, rs1 ++ rs2).
Proof.
  induction cs1 as [|c cs1 IH]; intros cs2 q; cbn [app do_calls].
  - rewrite bind_Ret. by destruct (do_calls cs2 q) as [[q2 rs2]| |].
  - destruct (do_call c q) as [[q1 r]| |]; [|done|done].
    rewrite !bind_Ret, IH.
    destruct (do_calls cs1 q1) as [[q2 rs1]| |]; [|done|done].
    rewrite !bind_Ret.
    by destruct (do_calls cs2 q2) as [[q3 rs2]| |].
Qed.

(** Under the invariant the slots after [tail] hold the live elements. *)
Lemma contents_rep_inv live q : rep_inv live q -> contents q = live.
Proof.
  intros [Hcount _ Hslots _]. apply list_eq. intros k. unfold contents.
  rewrite list_lookup_fmap.
  destruct (live !! k) as [v|] eqn:Hk.
  - pose proof (lookup_lt_Some _ _ _ Hk) as Hlt.
    rewrite lookup_seqZ_lt by (unfold len in *; lia).
    cbn [fmap option_fmap option_map]. rewrite Z.add_0_l.
    by rewrite (Hslots k v Hk).
  - apply lookup_ge_None in Hk.
    rewrite lookup_seqZ_ge; [done|]. unfold len in *. lia.
Qed.

(** A queue fresh from [NewWithCapacity] answers as the FIFO list does
    while no [Enqueue] finds it full. *)
Lemma refines_from_new c cs :
  1 <= c <= max_int -> within c cs [] ->
  exists q,
    session c cs = Ret (q, (fifo_calls cs []).2) /\
    rep_inv (fifo_calls cs []).1 q /\ inbounds q /\ capacity q = c.
Proof.
  intros Hc Hin. unfold session.
  destruct (NewWithCapacity_inbounds c Hc) as (q0 & Hnew & Hq0).
  rewrite Hnew, bind_Ret.
  rewrite NewWithCapacity_returns in Hnew by lia. injection Hnew as <-.
  exact (do_calls_refine_fifo cs _ [] Hq0 (rep_inv_new c ltac:(lia)) Hin).
Qed.

Lemma rep_inv_filled c vs :
  1 <= c <= max_int -> len vs <= c -> rep_inv vs (filled c vs).
Proof.
  intros Hc Hvs.
  destruct (refines_from_new c (enqueues vs) Hc) as (q & Hrun & Hrep & _).
  { apply within_enqueues. change (len []) with 0. lia. }
  unfold session in Hrun.
  rewrite NewWithCapacity_filled, bind_Ret in Hrun by lia.
  rewrite (do_calls_enqueues_filled c vs []) in Hrun;
    [|done|change (len []) with 0; lia].
  injection Hrun as <- _.
  by rewrite fifo_calls_enqueues in Hrep.
Qed.

Lemma within_pairs cap vs : 0 < cap -> within cap (pairs vs) [].
Proof.
  intros Hcap. induction vs as [|v vs IH]; [done|].
  cbn. repeat split; [unfold len; cbn; lia|]. apply IH.
Qed.

Lemma fifo_calls_pairs vs : fifo_calls (pairs vs) [] = ([], paired vs).
Proof.
  induction vs as [|v vs IH]; [done|].
  cbn. unfold pairs in IH. cbn in IH. by rewrite IH.
Qed.

(** A call leaves the capacity as it was or doubles it. *)
Lemma do_call_capacity c q :
  inbounds q ->
  exists q' r, do_call c q = Ret (q', r) /\ inbounds q' /\
    (capacity q' = capacity q \/ capacity q' = 2 * capacity q).
Proof.
  intros Hq. destruct c as [i|]; cbn [do_call].
  - destruct (Enqueue_cases i q Hq) as [(_ & _ & ->)|[(_ & Hsmall & ->)|(_ & ->)]];
      rewrite bind_Ret; eexists _, _; (split; [reflexivity|]).
    + by split; [|left].
    + split; [by apply after_grow_inbounds|by right].
    + split; [by apply after_enqueue_inbounds|by left].
  - destruct (Dequeue_cases q Hq) as [[_ ->]|[_ [v ->]]];
      rewrite bind_Ret; eexists _, _; (split; [reflexivity|]).
    + by split; [|left].
    + split; [by apply after_dequeue_inbounds|by left].
Qed.

Lemma do_calls_capacity cs : forall q,
  inbounds q ->
  exists q' rs (k : nat),
    do_calls cs q = Ret (q', rs) /\ capacity q' = capacity q * 2 ^ Z.of_nat k.
Proof.
  induction cs as [|c cs IH]; intros q Hq; cbn [do_calls].
  - exists q, [], 0%nat. split; [done|]. change (2 ^ Z.of_nat 0) with 1. lia.
  - destruct (do_call_capacity c q Hq) as (q1 & r & -> & Hq1 & Hcap).
    destruct (IH q1 Hq1) as (q2 & rs & k & Hrun & Hcap2).
    rewrite bind_Ret, Hrun, bind_Ret. destruct Hcap as [Hsame|Hdouble].
    + exists q2, (r :: rs), k. split; [done|]. by rewrite Hcap2, Hsame.
    + exists q2, (r :: rs), (S k). split; [done|].
      rewrite Hcap2, Hdouble, Nat2Z.inj_succ, Z.pow_succ_r by lia. lia.
Qed.

End FilledQueues.

Section QueueProperties.

Lemma fifo_within_capacity_witness :
  exists q,
    session 2 (enqueues ["a"; "b"]%string ++ dequeues 2)
      = Ret (q, enqueued ["a"; "b"]%string ++ dequeued ["a"; "b"]%string).
Proof.
  assert (1 <= 2 <= max_int) as Hc by evaluated.
  assert (len ["a"; "b"]%string <= 2) as Hvs by evaluated.
  exact (fifo_within_capacity 2 ["a"; "b"]%string Hc Hvs).
Defined.

Lemma session_bounded_witness :
  ensures (session 1 [CallEnqueue "a"; CallEnqueue "b"; CallDequeue])
    (fun r => inbounds r.1 /\ bounded r.1).
Proof.
  assert (1 <= 1 < max_int) as Hc by evaluated.
  exact (session_bounded 1 [CallEnqueue "a"; CallEnqueue "b"; CallDequeue] Hc).
Defined.

(** X2. A queue built with capacity [c >= 1] answers any sequence of calls
    as the FIFO list of the specification does, as long as no [Enqueue]
    finds [c] elements in it: every [Dequeue] returns the oldest element or
    "Queue empty", whatever the interleaving and however often the indices
    wrap around. The representation invariant holds at the end and the
    capacity is still [c]. *)
Theorem session_refines_fifo (c : Z) (cs : list call) :
  1 <= c <= max_int -> within c cs [] ->
  exists q,
    session c cs = Ret (q, (fifo_calls cs []).2) /\
    rep_inv (fifo_calls cs []).1 q /\ inbounds q /\ capacity q = c.
Proof. apply refines_from_new. Qed.

Lemma session_refines_fifo_witness :
  let cs := [CallEnqueue "a"; CallEnqueue "b"; CallDequeue; CallEnqueue "c";
             CallDequeue; CallDequeue; CallDequeue]%string in
  exists q,
    session 2 cs = Ret (q, (fifo_calls cs []).2) /\
    rep_inv (fifo_calls cs []).1 q /\ inbounds q /\ capacity q = 2.
Proof.
  intros cs.
  assert (1 <= 2 <= max_int) as Hc by evaluated.
  assert (within 2 cs []) as Hin by evaluated.
  exact (session_refines_fifo 2 cs Hc Hin).
Defined.

(** X4. On a queue within bounds, [resize] returns: its loop ends after
    [length + 1] rounds. It leaves a queue of the new capacity with [length]
    0, [head] -1 and [tail] 0, whose array is [new_capacity] empty strings,
    one more empty string, and then the elements the queue held, oldest
    first. *)
Theorem resize_closed_form (new_capacity : Z) (q : IntQueue) :
  inbounds q -> 0 <= length q -> 0 <= new_capacity ->
  resize new_capacity q =
    Ret (mkIntQueue
           (replicate (Z.to_nat new_capacity) ""%string ++ ""%string :: contents q)
           (-1) 0 new_capacity 0).
Proof. apply resize_returns. Qed.

Lemma resize_closed_form_witness :
  let q := mkIntQueue ["c"; "b"]%string 0 0 2 2 in
  resize 4 q =
    Ret (mkIntQueue (replicate (Z.to_nat 4) ""%string ++ ""%string :: contents q)
           (-1) 0 4 0).
Proof.
  intros q.
  assert (inbounds q) as Hq by (split; evaluated).
  assert (0 <= length q) as Hl by evaluated.
  assert (0 <= 4) as Hn by evaluated.
  exact (resize_closed_form 4 q Hq Hl Hn).
Defined.

(** X5. An [Enqueue] on a full queue whose capacity can double returns no
    error and leaves [length] 1, whatever the queue held. The [Dequeue]
    that follows returns the empty string with no error, not the string
    just enqueued, and the one after that reports "Queue empty". *)
Theorem grow_then_dequeue (i : string) (q : IntQueue) :
  inbounds q -> length q <= capacity q -> length q + 1 > capacity q ->
  2 * capacity q <= max_int ->
  exists q1 q2,
    Enqueue i q = Ret (q1, nil_error) /\
    length q1 = 1 /\
    Dequeue q1 = Ret (q2, (""%string, nil_error)) /\
    Dequeue q2 = Ret (q2, (""%string, errors_New "Queue empty")).
Proof.
  intros Hq Hle Hfull Hsmall.
  pose proof (inbounds_capacity q Hq) as Hc.
  pose proof (inbounds_length q Hq) as Hi.
  assert (capacity q < int_add (length q) 1) as Hfull'.
  { rewrite int_add_id by int_range. lia. }
  pose proof (after_grow_inbounds i q Hq Hsmall) as Hq1.
  destruct (Dequeue_nonempty (after_grow i q) Hq1) as (v & Hv & Hdeq).
  { cbn [after_grow length]. rewrite int_sub_1_1. lia. }
  assert (v = ""%string) as ->.
  { revert Hv. unfold slot. cbn [after_grow data tail capacity].
    rewrite Z.mod_small by lia. change (Z.to_nat (0 + 1 + 0)) with 1%nat.
    rewrite list_lookup_insert_ne by done.
    rewrite lookup_app_l by (rewrite length_replicate; lia).
    rewrite lookup_replicate_2 by lia. congruence. }
  exists (after_grow i q), (after_dequeue (after_grow i q)).
  split; [by apply Enqueue_grow|]. split; [done|]. split; [done|].
  apply Dequeue_empty. cbn [after_dequeue after_grow length].
  rewrite int_sub_1_1. unfold min_int. lia.
Qed.

Lemma grow_then_dequeue_witness :
  let q := mkIntQueue ["a"; "b"]%string 1 (-1) 2 2 in
  exists q1 q2,
    Enqueue "c" q = Ret (q1, nil_error) /\
    length q1 = 1 /\
    Dequeue q1 = Ret (q2, (""%string, nil_error)) /\
    Dequeue q2 = Ret (q2, (""%string, errors_New "Queue empty")).
Proof.
  intros q.
  assert (inbounds q) as Hq by (split; evaluated).
  assert (length q <= capacity q) as Hle by evaluated.
  assert (length q + 1 > capacity q) as Hfull by evaluated.
  assert (2 * capacity q <= max_int) as Hsmall by evaluated.
  exact (grow_then_dequeue "c" q Hq Hle Hfull Hsmall).
Defined.

(** X6. Whatever the calls, the capacity of a queue built with capacity
    [c >= 1] is [c] doubled some number of times: it never shrinks and
    never takes another value. *)
Theorem capacity_only_doubles (c : Z) (cs : list call) :
  1 <= c <= max_int ->
  exists q rs (k : nat),
    session c cs = Ret (q, rs) /\
    capacity q = c * 2 ^ Z.of_nat k /\ c <= capacity q.
Proof.
  intros Hc. unfold session.
  destruct (NewWithCapacity_inbounds c Hc) as (q0 & Hnew & Hq0).
  rewrite Hnew, bind_Ret.
  rewrite NewWithCapacity_returns in Hnew by lia. injection Hnew as <-.
  destruct (do_calls_capacity cs _ Hq0) as (q & rs & k & Hrun & Hcap).
  exists q, rs, k. split; [done|]. cbn [capacity] in Hcap. split; [done|].
  rewrite Hcap. pose proof (Z.pow_pos_nonneg 2 (Z.of_nat k)). nia.
Qed.

Lemma capacity_only_doubles_witness :
  exists q rs (k : nat),
    session 3 (enqueues ["a"; "b"; "c"; "d"]%string) = Ret (q, rs) /\
    capacity q = 3 * 2 ^ Z.of_nat k /\ 3 <= capacity q.
Proof.
  assert (1 <= 3 <= max_int) as Hc by evaluated.
  exact (capacity_only_doubles 3 (enqueues ["a"; "b"; "c"; "d"]%string) Hc).
Defined.

(** X7. Enqueueing at most [c] strings into a queue built with capacity
    [c >= 1] returns no error and leaves them at the start of the array in
    the order given, the rest of the array empty strings, with [tail] still
    -1, [head] at the last of them and [length] their number. *)
Theorem fill_closed_form (c : Z) (vs : list string) :
  1 <= c <= max_int -> len vs <= c ->
  session c (enqueues vs) =
    Ret (mkIntQueue (vs ++ replicate (Z.to_nat c - List.length vs) ""%string)
           (len vs - 1) (-1) c (len vs),
         enqueued vs).
Proof.
  intros Hc Hvs. unfold session.
  rewrite NewWithCapacity_filled, bind_Ret by lia.
  apply (do_calls_enqueues_filled c vs []); [done|].
  change (len []) with 0. lia.
Qed.

Lemma fill_closed_form_witness :
  session 3 (enqueues ["a"; "b"]%string) =
    Ret (mkIntQueue (["a"; "b"]%string ++ replicate (Z.to_nat 3 - 2) ""%string)
           (len ["a"; "b"]%string - 1) (-1) 3 (len ["a"; "b"]%string),
         enqueued ["a"; "b"]%string).
Proof.
  assert (1 <= 3 <= max_int) as Hc by evaluated.
  assert (len ["a"; "b"]%string <= 3) as Hvs by evaluated.
  exact (fill_closed_form 3 ["a"; "b"]%string Hc Hvs).
Defined.

(** X8. Enqueueing [c + 1] strings into a queue built with capacity [c]
    (with [2 c] an [int]) returns no error and leaves capacity [2 c] and
    [length] 1: the last string is at index 0, with [head] and [tail] both
    0, and the first [c] strings are at the end of the array, behind
    [2 c] other slots, no longer counted. *)
Theorem fill_past_capacity (c : Z) (vs : list string) (v : string) :
  1 <= c -> 2 * c <= max_int -> len vs = c ->
  session c (enqueues (vs ++ [v])) =
    Ret (mkIntQueue
           (v :: replicate (Z.to_nat (2 * c - 1)) ""%string ++ ""%string :: vs)
           0 0 (2 * c) 1,
         enqueued (vs ++ [v])).
Proof.
  intros Hc Hsmall Hvs.
  assert (1 <= c <= max_int) as Hc' by int_range.
  unfold session. rewrite NewWithCapacity_filled, bind_Ret by lia.
  unfold enqueues, enqueued. rewrite !fmap_app, do_calls_app.
  fold (enqueues vs). fold (enqueued vs).
  rewrite (do_calls_enqueues_filled c vs []), bind_Ret;
    [|done|change (len []) with 0; lia].
  cbn [fmap list_fmap do_calls do_call app].
  rewrite Enqueue_grow.
  - rewrite !bind_Ret. f_equal. f_equal.
    unfold after_grow. cbn [filled capacity].
    rewrite (contents_rep_inv vs) by (apply rep_inv_filled; [done|lia]).
    f_equal.
    replace (Z.to_nat (2 * c)) with (S (Z.to_nat (2 * c - 1))) by lia.
    reflexivity.
  - apply filled_inbounds; [done|lia].
  - cbn [filled capacity length]. rewrite int_add_id by int_range. lia.
  - cbn [filled capacity]. lia.
Qed.

Lemma fill_past_capacity_witness :
  session 2 (enqueues (["a"; "b"]%string ++ ["c"%string])) =
    Ret (mkIntQueue
           ("c"%string :: replicate (Z.to_nat (2 * 2 - 1)) ""%string
              ++ ""%string :: ["a"; "b"]%string)
           0 0 (2 * 2) 1,
         enqueued (["a"; "b"]%string ++ ["c"%string])).
Proof.
  assert (1 <= 2) as Hc by evaluated.
  assert (2 * 2 <= max_int) as Hsmall by evaluated.
  assert (len ["a"; "b"]%string = 2) as Hvs by evaluated.
  exact (fill_past_capacity 2 ["a"; "b"]%string "c"%string Hc Hsmall Hvs).
Defined.

(** X9. On a queue built with any capacity [c >= 1], any number of
    [Enqueue] calls each followed at once by a [Dequeue] give every string
    back, with no error: the indices go round the array and the queue never
    grows. *)
Theorem enqueue_dequeue_pairs (c : Z) (vs : list string) :
  1 <= c <= max_int ->
  exists q,
    session c (pairs vs) = Ret (q, paired vs) /\
    capacity q = c /\ length q = 0.
Proof.
  intros Hc.
  destruct (refines_from_new c (pairs vs) Hc) as (q & Hrun & Hrep & _ & Hcap).
  { apply within_pairs. lia. }
  rewrite fifo_calls_pairs in Hrun, Hrep. cbn [fst snd] in *.
  exists q. split; [done|]. split; [done|]. by rewrite (rep_count [] q Hrep).
Qed.

Lemma enqueue_dequeue_pairs_witness :
  exists q,
    session 1 (pairs ["a"; "b"; "c"]%string) = Ret (q, paired ["a"; "b"; "c"]%string) /\
    capacity q = 1 /\ length q = 0.
Proof.
  assert (1 <= 1 <= max_int) as Hc by evaluated.
  exact (enqueue_dequeue_pairs 1 ["a"; "b"; "c"]%string Hc).
Defined.

(** X10. A queue built with capacity 0: a [Dequeue] reports "Queue empty",
    a first [Enqueue] returns no error (the capacity stays 0, the array has
    the one slot [resize] appended), and whatever call follows that
    [Enqueue] panics, reading index 1 of an array of length 1. *)
Theorem capacity_zero_queue (i : string) (c : call) :
  session 0 [CallDequeue] =
    Ret (mkIntQueue [] (-1) (-1) 0 0, [DequeueReturned "" (errors_New "Queue empty")]) /\
  session 0 [CallEnqueue i] = Ret (mkIntQueue [i] 0 0 0 1, [EnqueueReturned nil_error]) /\
  session 0 [CallEnqueue i; c] = Panic (IndexOutOfRange 1 1).
Proof.
  split; [|split].
  - vm_compute. reflexivity.
  - vm_compute. reflexivity.
  - destruct c; vm_compute; reflexivity.
Qed.

(** X11. A queue built by [New()] takes up to [DefaultCapacity] = 32
    strings and gives them back in order; it is then empty and its
    capacity is still 32. *)
Theorem New_fifo (vs : list string) :
  len vs <= DefaultCapacity ->
  exists q,
    (q0 ← New; do_calls (enqueues vs ++ dequeues (List.length vs)) q0)
      = Ret (q, enqueued vs ++ dequeued vs) /\
    capacity q = 32 /\ length q = 0.
Proof.
  intros Hvs.
  assert (1 <= DefaultCapacity <= max_int) as Hc by evaluated.
  destruct (refines_from_new DefaultCapacity
              (enqueues vs ++ dequeues (List.length vs)) Hc) as (q & Hrun & Hrep & _ & Hcap).
  { apply within_app; [apply within_enqueues; change (len []) with 0; lia
                      |apply within_dequeues]. }
  pose proof (fifo_calls_dequeues vs []) as Hdeq. rewrite app_nil_r in Hdeq.
  rewrite fifo_calls_app, fifo_calls_enqueues in Hrun, Hrep.
  cbn [fst snd app] in Hrun, Hrep. rewrite Hdeq in Hrun, Hrep. cbn [fst snd] in *.
  exists q. split; [exact Hrun|]. split; [done|]. by rewrite (rep_count [] q Hrep).
Qed.

Lemma New_fifo_witness :
  exists q,
    (q0 ← New; do_calls (enqueues ["a"; "b"]%string ++ dequeues 2) q0)
      = Ret (q, enqueued ["a"; "b"]%string ++ dequeued ["a"; "b"]%string) /\
    capacity q = 32 /\ length q = 0.
Proof.
  assert (len ["a"; "b"]%string <= DefaultCapacity) as Hvs by evaluated.
  exact (New_fifo ["a"; "b"]%string Hvs).
Defined.

End QueueProperties.
